(** * Compass navigator: geodesy, angle filters, sensor fusion and the
      navigation-state reducers, embedded over the real numbers.

    JavaScript numbers are read as real numbers ([R]): every arithmetic
    operation is exact, and [NaN], the infinities and signed zeros do not
    occur.  [number | null] fields are [option R]. *)

From Stdlib Require Import Reals Lra Lia ZArith List Bool String Psatz.
Import ListNotations.

Local Open Scope R_scope.

(** ** The JavaScript numeric primitives the sources call *)

Module JS.

(** Truncation toward zero, the integer quotient behind [%]. *)
Definition trunc (r : R) : Z :=
  if Rle_dec 0 r then Int_part r else (- Int_part (- r))%Z.

(** [x % y]: the remainder carries the sign of the dividend. *)
Definition rem (x y : R) : R := x - IZR (trunc (x / y)) * y.

(** [Math.atan2(y, x)], the angle of the point [(x, y)] in [(-PI, PI]]. *)
Definition atan2 (y x : R) : R :=
  if Rlt_dec 0 x then atan (y / x)
  else if Rlt_dec x 0 then
    if Rle_dec 0 y then atan (y / x) + PI else atan (y / x) - PI
  else if Rlt_dec 0 y then PI / 2
  else if Rlt_dec y 0 then - (PI / 2)
  else 0.

(** [Math.max] and [Math.min] on two arguments. *)
Definition max (x y : R) : R := Rmax x y.
Definition min (x y : R) : R := Rmin x y.

End JS.

(** ** utils/geolocation.ts *)

Record Coordinates : Type := mkCoordinates {
  latitude : R;
  longitude : R
}.

Definition EARTH_RADIUS_METERS : R := 6371000.

Definition toRadians (degrees : R) : R := degrees * (PI / 180).

Definition toDegrees (radians : R) : R := radians * (180 / PI).

Definition calculateDistance (coord1 coord2 : Coordinates) : R :=
  let lat1Rad := toRadians (latitude coord1) in
  let lat2Rad := toRadians (latitude coord2) in
  let deltaLatRad := toRadians (latitude coord2 - latitude coord1) in
  let deltaLonRad := toRadians (longitude coord2 - longitude coord1) in
  let a :=
    sin (deltaLatRad / 2) * sin (deltaLatRad / 2) +
    cos lat1Rad * cos lat2Rad * sin (deltaLonRad / 2) * sin (deltaLonRad / 2) in
  let c := 2 * JS.atan2 (sqrt a) (sqrt (1 - a)) in
  EARTH_RADIUS_METERS * c.

Definition calculateBearing (from to : Coordinates) : R :=
  let lat1Rad := toRadians (latitude from) in
  let lat2Rad := toRadians (latitude to) in
  let deltaLonRad := toRadians (longitude to - longitude from) in
  let y := sin deltaLonRad * cos lat2Rad in
  let x := cos lat1Rad * sin lat2Rad -
           sin lat1Rad * cos lat2Rad * cos deltaLonRad in
  let bearingRad := JS.atan2 y x in
  let bearingDeg := toDegrees bearingRad in
  JS.rem (bearingDeg + 360) 360.

Definition normalizeAngle (angle : R) : R :=
  let normalized := JS.rem angle 360 in
  if Rlt_dec normalized 0 then normalized + 360 else normalized.

(** The two [while] loops of [angleDifference], each run on fuel: [None]
    means the fuel ran out before the loop condition became false. *)
Fixpoint while_above (fuel : nat) (diff : R) : option R :=
  match fuel with
  | O => None
  | S fuel' =>
      if Rlt_dec 180 diff then while_above fuel' (diff - 360) else Some diff
  end.

Fixpoint while_below (fuel : nat) (diff : R) : option R :=
  match fuel with
  | O => None
  | S fuel' =>
      if Rlt_dec diff (-180) then while_below fuel' (diff + 360) else Some diff
  end.

Definition angleDifference_fuel (fuel : nat) (angle1 angle2 : R) : option R :=
  match while_above fuel (angle2 - angle1) with
  | Some diff => while_below fuel diff
  | None => None
  end.

(** Fuel that always suffices: one test per full turn contained in the
    initial difference, and the final failing test. *)
Definition loop_bound (diff : R) : nat := S (Z.to_nat (up (Rabs diff / 360))).

(** [angleDifference] as a total function; [angleDifference_fuel_enough]
    below shows that the fallback branch is never taken. *)
Definition angleDifference (angle1 angle2 : R) : R :=
  match angleDifference_fuel (loop_bound (angle2 - angle1)) angle1 angle2 with
  | Some diff => diff
  | None => angle2 - angle1
  end.

(** ** Facts about the numeric primitives *)

Section RemFacts.

Lemma trunc_spec (r : R) (z : Z) :
  (0 <= r /\ IZR z <= r < IZR z + 1) \/
  (r <= 0 /\ IZR z - 1 < r <= IZR z) ->
  JS.trunc r = z.
Proof.
  intros H. unfold JS.trunc.
  destruct (Rle_dec 0 r) as [Hr | Hr].
  - symmetry. apply Int_part_spec.
    destruct H as [[_ [H1 H2]] | [H0 [H1 H2]]]; [lra |].
    assert (r = 0) by lra. subst r.
    assert (z = 0%Z).
    { assert (0 <= z)%Z by (apply le_IZR; lra).
      assert (z < 1)%Z by (apply lt_IZR; lra). lia. }
    subst z. lra.
  - destruct H as [[H0 _] | [H0 [H1 H2]]]; [lra |].
    assert (E : (- z)%Z = Int_part (- r)).
    { apply Int_part_spec. rewrite opp_IZR. lra. }
    rewrite <- E. lia.
Qed.

Lemma rem_nonneg (r y : R) (k : Z) :
  0 < y -> 0 <= r < y -> (0 <= k)%Z -> JS.rem (r + IZR k * y) y = r.
Proof.
  intros Hy Hr Hk. unfold JS.rem.
  assert (Hk' : 0 <= IZR k) by (apply IZR_le in Hk; exact Hk).
  assert (Hq : (r + IZR k * y) / y = r / y + IZR k) by (field; lra).
  assert (Hry : 0 <= r / y < 1).
  { split.
    - apply Rmult_le_pos; [lra | left; apply Rinv_0_lt_compat; lra].
    - apply Rmult_lt_reg_r with y; [lra |].
      replace (r / y * y) with r by (field; lra). lra. }
  rewrite (trunc_spec _ k); [lra |].
  left. rewrite Hq. lra.
Qed.

Lemma rem_nonpos (r y : R) (k : Z) :
  0 < y -> 0 <= r < y -> (0 <= k)%Z -> JS.rem (- (r + IZR k * y)) y = - r.
Proof.
  intros Hy Hr Hk. unfold JS.rem.
  assert (Hk' : 0 <= IZR k) by (apply IZR_le in Hk; exact Hk).
  assert (Hq : - (r + IZR k * y) / y = - (r / y) - IZR k) by (field; lra).
  assert (Hry : 0 <= r / y < 1).
  { split.
    - apply Rmult_le_pos; [lra | left; apply Rinv_0_lt_compat; lra].
    - apply Rmult_lt_reg_r with y; [lra |].
      replace (r / y * y) with r by (field; lra). lra. }
  rewrite (trunc_spec _ (- k)%Z); [rewrite opp_IZR; lra |].
  right. rewrite Hq, opp_IZR. lra.
Qed.

(** Every real is a remainder plus a whole number of periods. *)
Lemma rem_decompose (x y : R) :
  0 < y ->
  exists (r : R) (k : Z),
    0 <= r < y /\ (0 <= k)%Z /\
    ((0 <= x /\ x = r + IZR k * y) \/ (x < 0 /\ x = - (r + IZR k * y))).
Proof.
  intros Hy.
  assert (Hdec : forall t, 0 <= t ->
    exists (r : R) (k : Z), 0 <= r < y /\ (0 <= k)%Z /\ t = r + IZR k * y).
  { intros t Ht.
    pose proof (base_Int_part (t / y)) as [B1 B2].
    assert (Hq : 0 <= t / y).
    { apply Rmult_le_pos; [lra | left; apply Rinv_0_lt_compat; lra]. }
    assert (Ht' : t = t / y * y) by (field; lra).
    exists (t - IZR (Int_part (t / y)) * y), (Int_part (t / y)).
    repeat split.
    - nra.
    - nra.
    - apply le_IZR. apply Rnot_lt_le. intros Hneg.
      assert (IZR (Int_part (t / y)) <= -1).
      { apply IZR_le. apply lt_IZR in Hneg. lia. }
      lra.
    - lra. }
  destruct (Rle_dec 0 x) as [Hx | Hx].
  - destruct (Hdec x Hx) as (r & k & H1 & H2 & H3).
    exists r, k. split; [exact H1 |]. split; [exact H2 |].
    left. split; assumption.
  - destruct (Hdec (- x)) as (r & k & H1 & H2 & H3); [lra |].
    exists r, k. split; [exact H1 |]. split; [exact H2 |].
    right. split; lra.
Qed.

Lemma rem_range_nonneg (x y : R) :
  0 < y -> 0 <= x -> 0 <= JS.rem x y < y.
Proof.
  intros Hy Hx.
  destruct (rem_decompose x y Hy) as (r & k & Hr & Hk & [[_ E] | [Hn _]]);
    [| lra].
  rewrite E, rem_nonneg by assumption. exact Hr.
Qed.

Lemma rem_range_neg (x y : R) :
  0 < y -> x < 0 -> - y < JS.rem x y <= 0.
Proof.
  intros Hy Hx.
  destruct (rem_decompose x y Hy) as (r & k & Hr & Hk & [[Hn _] | [_ E]]);
    [lra |].
  rewrite E, rem_nonpos by assumption. lra.
Qed.

End RemFacts.

(** ** normalizeAngle *)

Lemma normalizeAngle_range (x : R) : 0 <= normalizeAngle x < 360.
Proof.
  unfold normalizeAngle.
  destruct (Rle_dec 0 x) as [Hx | Hx].
  - pose proof (rem_range_nonneg x 360 ltac:(lra) Hx).
    destruct (Rlt_dec (JS.rem x 360) 0); lra.
  - pose proof (rem_range_neg x 360 ltac:(lra) ltac:(lra)).
    destruct (Rlt_dec (JS.rem x 360) 0); lra.
Qed.

(** [normalizeAngle] picks the representative in [[0, 360)] of the class of
    its argument modulo 360. *)
Lemma normalizeAngle_unique (q : R) (k : Z) :
  0 <= q < 360 -> normalizeAngle (q + IZR k * 360) = q.
Proof.
  intros Hq. unfold normalizeAngle.
  destruct (Z_le_gt_dec 0 k) as [Hk | Hk].
  - rewrite rem_nonneg by (lra || assumption).
    destruct (Rlt_dec q 0); lra.
  - destruct (Req_dec q 0) as [E | E].
    + subst q.
      replace (0 + IZR k * 360) with (- (0 + IZR (- k) * 360))
        by (rewrite opp_IZR; lra).
      rewrite rem_nonpos by (lra || lia).
      destruct (Rlt_dec (- 0) 0); lra.
    + replace (q + IZR k * 360) with (- ((360 - q) + IZR (- k - 1) * 360))
        by (rewrite minus_IZR, opp_IZR; lra).
      rewrite rem_nonpos by (lra || lia).
      destruct (Rlt_dec (- (360 - q)) 0); lra.
Qed.

Lemma normalizeAngle_congr (x : R) :
  exists k : Z, x = normalizeAngle x + IZR k * 360.
Proof.
  unfold normalizeAngle.
  destruct (rem_decompose x 360 ltac:(lra))
    as (r & k & Hr & Hk & [[Hx E] | [Hx E]]).
  - subst x. rewrite rem_nonneg by (lra || assumption).
    destruct (Rlt_dec r 0); [lra |]. exists k. reflexivity.
  - subst x. rewrite rem_nonpos by (lra || assumption).
    destruct (Rlt_dec (- r) 0).
    + exists (- k - 1)%Z. rewrite minus_IZR, opp_IZR. lra.
    + exists (- k)%Z. rewrite opp_IZR. lra.
Qed.


(** ** angleDifference: the loops terminate and land in [[-180, 180]] *)

Section AngleDifference.

Lemma while_above_more_fuel (n m : nat) (d r : R) :
  while_above n d = Some r -> (n <= m)%nat -> while_above m d = Some r.
Proof.
  revert m d. induction n as [| n IH]; intros m d H Hle; [discriminate |].
  destruct m as [| m]; [lia |]. simpl in *.
  destruct (Rlt_dec 180 d); [| exact H].
  apply IH; [exact H | lia].
Qed.

Lemma while_below_more_fuel (n m : nat) (d r : R) :
  while_below n d = Some r -> (n <= m)%nat -> while_below m d = Some r.
Proof.
  revert m d. induction n as [| n IH]; intros m d H Hle; [discriminate |].
  destruct m as [| m]; [lia |]. simpl in *.
  destruct (Rlt_dec d (-180)); [| exact H].
  apply IH; [exact H | lia].
Qed.

Lemma while_above_spec (n : nat) (d : R) :
  d <= 180 + 360 * INR n ->
  exists r, while_above (S n) d = Some r /\ r <= 180 /\
            ((d <= 180 /\ r = d) \/ (180 < d /\ -180 < r)).
Proof.
  revert d. induction n as [| n IH]; intros d Hd.
  - simpl in *. destruct (Rlt_dec 180 d); [lra |].
    exists d. split; [reflexivity |]. split; [lra |]. left. lra.
  - rewrite S_INR in Hd.
    change (while_above (S (S n)) d)
      with (if Rlt_dec 180 d then while_above (S n) (d - 360) else Some d).
    destruct (Rlt_dec 180 d) as [Hgt | Hle].
    + destruct (IH (d - 360)) as (r & Hr & Hub & Hcase); [lra |].
      exists r. split; [exact Hr |]. split; [exact Hub |].
      right. split; [exact Hgt |]. lra.
    + exists d. split; [reflexivity |]. split; [lra |]. left. lra.
Qed.

Lemma while_below_spec (n : nat) (d : R) :
  - 180 - 360 * INR n <= d ->
  exists r, while_below (S n) d = Some r /\ -180 <= r /\
            ((-180 <= d /\ r = d) \/ (d < -180 /\ r < 180)).
Proof.
  revert d. induction n as [| n IH]; intros d Hd.
  - simpl in *. destruct (Rlt_dec d (-180)); [lra |].
    exists d. split; [reflexivity |]. split; [lra |]. left. lra.
  - rewrite S_INR in Hd.
    change (while_below (S (S n)) d)
      with (if Rlt_dec d (-180) then while_below (S n) (d + 360) else Some d).
    destruct (Rlt_dec d (-180)) as [Hlt | Hge].
    + destruct (IH (d + 360)) as (r & Hr & Hlb & Hcase); [lra |].
      exists r. split; [exact Hr |]. split; [exact Hlb |].
      right. split; [exact Hlt |]. lra.
    + exists d. split; [reflexivity |]. split; [lra |]. left. lra.
Qed.

Lemma loop_bound_covers (d : R) :
  Rabs d < 360 * INR (Z.to_nat (up (Rabs d / 360))).
Proof.
  pose proof (archimed (Rabs d / 360)) as [Hup _].
  pose proof (Rabs_pos d) as Hpos.
  assert (Hq : 0 <= Rabs d / 360) by lra.
  assert (Hz : (0 <= up (Rabs d / 360))%Z).
  { apply le_IZR. lra. }
  rewrite INR_IZR_INZ, Z2Nat.id by exact Hz. lra.
Qed.

Lemma angleDifference_fuel_more (n m : nat) (a b r : R) :
  angleDifference_fuel n a b = Some r -> (n <= m)%nat ->
  angleDifference_fuel m a b = Some r.
Proof.
  unfold angleDifference_fuel. intros H Hle.
  destruct (while_above n (b - a)) as [d |] eqn:Ha; [| discriminate].
  rewrite (while_above_more_fuel n m _ d Ha Hle).
  eapply while_below_more_fuel; eassumption.
Qed.

Lemma angleDifference_fuel_enough (a b : R) :
  exists r, angleDifference_fuel (loop_bound (b - a)) a b = Some r /\
            -180 <= r <= 180.
Proof.
  unfold angleDifference_fuel, loop_bound.
  pose proof (loop_bound_covers (b - a)) as Hcov.
  set (n := Z.to_nat (up (Rabs (b - a) / 360))) in *.
  pose proof (Rle_abs (b - a)) as Hup.
  pose proof (Rle_abs (- (b - a))) as Hdown. rewrite Rabs_Ropp in Hdown.
  destruct (while_above_spec n (b - a)) as (d & Hd & Hd180 & Hcase); [lra |].
  rewrite Hd.
  destruct (while_below_spec n d) as (r & Hr & Hr180 & Hcase');
    [destruct Hcase as [[_ ->] | [_ ?]]; lra |].
  exists r. split; [exact Hr |]. split; [exact Hr180 |].
  destruct Hcase' as [[_ ->] | [_ ?]]; lra.
Qed.

Lemma angleDifference_eval (n : nat) (a b r : R) :
  angleDifference_fuel n a b = Some r -> angleDifference a b = r.
Proof.
  intros H. unfold angleDifference.
  destruct (angleDifference_fuel_enough a b) as (r' & Hr' & _).
  rewrite Hr'.
  pose proof (angleDifference_fuel_more _ (Nat.max n (loop_bound (b - a)))
                _ _ _ H (Nat.le_max_l _ _)) as H1.
  pose proof (angleDifference_fuel_more _ (Nat.max n (loop_bound (b - a)))
                _ _ _ Hr' (Nat.le_max_r _ _)) as H2.
  congruence.
Qed.



End AngleDifference.



(** ** hooks/useNavigation.ts: the snapshot and its two reducers *)

Record NavigationData : Type := mkNavigationData {
  userLocation : option Coordinates;
  targetLocation : Coordinates;
  distance : option R;
  bearing : option R;
  deviceHeading : option R;
  relativeAngle : option R
}.

Definition TARGET_LOCATION : Coordinates :=
  {| latitude := 13.0453132; longitude := 77.5733936 |}.

(** The argument of [useState]. *)
Definition initialNavigationData : NavigationData :=
  {| userLocation := None;
     targetLocation := TARGET_LOCATION;
     distance := None;
     bearing := None;
     deviceHeading := None;
     relativeAngle := None |}.

(** The updater [updateLocation] hands to [setNavigationData]. *)
Definition updateLocation (location : Coordinates) (prev : NavigationData)
  : NavigationData :=
  let distance' := calculateDistance location TARGET_LOCATION in
  let bearing' := calculateBearing location TARGET_LOCATION in
  let relativeAngle' :=
    match deviceHeading prev with
    | Some heading => Some (angleDifference heading bearing')
    | None => None
    end in
  {| userLocation := Some location;
     targetLocation := targetLocation prev;
     distance := Some distance';
     bearing := Some bearing';
     deviceHeading := deviceHeading prev;
     relativeAngle := relativeAngle' |}.

(** The updater [updateDeviceHeading] hands to [setNavigationData]. *)
Definition updateDeviceHeading (heading : R) (prev : NavigationData)
  : NavigationData :=
  let normalizedHeading := normalizeAngle heading in
  let relativeAngle' :=
    match bearing prev with
    | Some b => Some (angleDifference normalizedHeading b)
    | None => None
    end in
  {| userLocation := userLocation prev;
     targetLocation := targetLocation prev;
     distance := distance prev;
     bearing := bearing prev;
     deviceHeading := Some normalizedHeading;
     relativeAngle := relativeAngle' |}.

(** One delivery from either source. *)
Inductive NavEvent : Type :=
| LocationUpdate (location : Coordinates)
| HeadingUpdate (heading : R).

Definition applyEvent (prev : NavigationData) (e : NavEvent) : NavigationData :=
  match e with
  | LocationUpdate location => updateLocation location prev
  | HeadingUpdate heading => updateDeviceHeading heading prev
  end.

(** Snapshots the hook can hold: the initial one and whatever the two
    reducers make of a reachable one. *)
Inductive reachable : NavigationData -> Prop :=
| reachable_initial : reachable initialNavigationData
| reachable_step (d : NavigationData) (e : NavEvent) :
    reachable d -> reachable (applyEvent d e).

Definition isSome {A : Type} (o : option A) : bool :=
  match o with Some _ => true | None => false end.

(** The joint-nullity invariant of the snapshot, as a checkable predicate. *)
Definition nullity_invariant (d : NavigationData) : bool :=
  Bool.eqb (isSome (distance d)) (isSome (userLocation d)) &&
  Bool.eqb (isSome (bearing d)) (isSome (userLocation d)) &&
  Bool.eqb (isSome (relativeAngle d))
           (isSome (bearing d) && isSome (deviceHeading d)).

Lemma isSome_true_iff {A : Type} (o : option A) :
  isSome o = true <-> o <> None.
Proof. destruct o; simpl; split; congruence. Qed.

Lemma nullity_invariant_iff (d : NavigationData) :
  nullity_invariant d = true <->
  ((distance d <> None <-> userLocation d <> None) /\
   (bearing d <> None <-> userLocation d <> None) /\
   (relativeAngle d <> None <->
      (bearing d <> None /\ deviceHeading d <> None))).
Proof.
  unfold nullity_invariant.
  rewrite <- !isSome_true_iff, !andb_true_iff, !Bool.eqb_true_iff.
  destruct (isSome (distance d)), (isSome (userLocation d)),
    (isSome (bearing d)), (isSome (deviceHeading d)),
    (isSome (relativeAngle d)); simpl; intuition congruence.
Qed.

(** The invariant in the words of the data model: [distance] and [bearing]
    are present exactly when [userLocation] is, and [relativeAngle] exactly
    when both [bearing] and [deviceHeading] are. *)
Definition joint_nullity (d : NavigationData) : Prop :=
  (distance d <> None <-> userLocation d <> None) /\
  (bearing d <> None <-> userLocation d <> None) /\
  (relativeAngle d <> None <->
     (bearing d <> None /\ deviceHeading d <> None)).

Lemma joint_nullity_decide (d : NavigationData) :
  nullity_invariant d = true <-> joint_nullity d.
Proof. apply nullity_invariant_iff. Qed.

Section Reducers.

Lemma updateLocation_nullity (location : Coordinates) (prev : NavigationData) :
  nullity_invariant (updateLocation location prev) = true.
Proof.
  unfold nullity_invariant, updateLocation. simpl.
  destruct (deviceHeading prev); reflexivity.
Qed.

Lemma updateDeviceHeading_nullity (heading : R) (prev : NavigationData) :
  nullity_invariant prev = true ->
  nullity_invariant (updateDeviceHeading heading prev) = true.
Proof.
  unfold nullity_invariant, updateDeviceHeading. simpl.
  rewrite !andb_true_iff, !Bool.eqb_true_iff.
  intros [[H1 H2] _]. rewrite H1, H2.
  destruct (bearing prev), (userLocation prev); simpl in *;
    try discriminate; auto.
Qed.

Lemma applyEvent_nullity (d : NavigationData) (e : NavEvent) :
  nullity_invariant d = true -> nullity_invariant (applyEvent d e) = true.
Proof.
  destruct e; simpl; intros H.
  - apply updateLocation_nullity.
  - apply updateDeviceHeading_nullity, H.
Qed.

Lemma reachable_nullity (d : NavigationData) :
  reachable d -> nullity_invariant d = true.
Proof.
  induction 1 as [| d e _ IH]; [reflexivity |].
  apply applyEvent_nullity, IH.
Qed.

End Reducers.

(** C4. The joint-nullity invariant holds for the initial snapshot, is
    preserved by the location-update reducer and by the heading-update
    reducer, and therefore holds for every reachable snapshot. *)
Theorem joint_nullity_invariant :
  joint_nullity initialNavigationData /\
  (forall location prev,
      joint_nullity prev -> joint_nullity (updateLocation location prev)) /\
  (forall heading prev,
      joint_nullity prev -> joint_nullity (updateDeviceHeading heading prev)) /\
  (forall d, reachable d -> joint_nullity d).
Proof.
  split; [| split; [| split]].
  - apply joint_nullity_decide. reflexivity.
  - intros location prev _. apply joint_nullity_decide.
    apply updateLocation_nullity.
  - intros heading prev H. apply joint_nullity_decide.
    apply updateDeviceHeading_nullity. apply joint_nullity_decide, H.
  - intros d H. apply joint_nullity_decide. apply reachable_nullity, H.
Qed.

Lemma joint_nullity_invariant_witness :
  joint_nullity
    (updateDeviceHeading 725
       (updateLocation (mkCoordinates 0 0) initialNavigationData)).
Proof.
  apply (proj2 (proj2 (proj2 joint_nullity_invariant))).
  apply (reachable_step _ (HeadingUpdate 725)).
  apply (reachable_step _ (LocationUpdate (mkCoordinates 0 0))).
  apply reachable_initial.
Defined.

(** C3. From every snapshot, for every location sample and heading sample,
    delivering the location then the heading leaves the same [relativeAngle]
    as delivering the heading then the location: the angle between the
    normalized heading and the bearing of the new location. *)
Theorem relativeAngle_order_independent
    (prev : NavigationData) (location : Coordinates) (heading : R) :
  relativeAngle (updateDeviceHeading heading (updateLocation location prev)) =
  relativeAngle (updateLocation location (updateDeviceHeading heading prev)) /\
  relativeAngle (updateLocation location (updateDeviceHeading heading prev)) =
  Some (angleDifference (normalizeAngle heading)
          (calculateBearing location TARGET_LOCATION)).
Proof. split; reflexivity. Qed.

(** C9. The heading-update reducer carries [userLocation], [targetLocation],
    [distance] and [bearing] forward unchanged; only [deviceHeading] and
    [relativeAngle] are written. *)
Theorem updateDeviceHeading_frame (prev : NavigationData) (heading : R) :
  userLocation (updateDeviceHeading heading prev) = userLocation prev /\
  targetLocation (updateDeviceHeading heading prev) = targetLocation prev /\
  distance (updateDeviceHeading heading prev) = distance prev /\
  bearing (updateDeviceHeading heading prev) = bearing prev /\
  deviceHeading (updateDeviceHeading heading prev) =
    Some (normalizeAngle heading) /\
  relativeAngle (updateDeviceHeading heading prev) =
    option_map (angleDifference (normalizeAngle heading)) (bearing prev).
Proof.
  unfold updateDeviceHeading. simpl.
  destruct (bearing prev); repeat split; reflexivity.
Qed.

(** ** utils/filters.ts *)

Module LowPassFilter.

Record t : Type := mk {
  value : option R;
  alpha : R
}.

Definition new (alpha : R) : t :=
  {| value := None; alpha := JS.max 0 (JS.min 1 alpha) |}.

Definition update (f : t) (newValue : R) : t * R :=
  let v :=
    match value f with
    | None => newValue
    | Some old => alpha f * newValue + (1 - alpha f) * old
    end in
  ({| value := Some v; alpha := alpha f |}, v).

Definition reset (f : t) : t := {| value := None; alpha := alpha f |}.

Definition getValue (f : t) : option R := value f.

End LowPassFilter.

Module AngleFilter.

Record t : Type := mk {
  sinAvg : R;
  cosAvg : R;
  alpha : R
}.

Definition new (alpha : R) : t :=
  {| sinAvg := 0; cosAvg := 0; alpha := JS.max 0 (JS.min 1 alpha) |}.

(** [update] returns the filter after the assignment to its two
    accumulators, and the smoothed angle. *)
Definition update (f : t) (angleDegrees : R) : t * R :=
  let angleRad := angleDegrees * PI / 180 in
  let sinAvg' := alpha f * sin angleRad + (1 - alpha f) * sinAvg f in
  let cosAvg' := alpha f * cos angleRad + (1 - alpha f) * cosAvg f in
  let smoothedRad := JS.atan2 sinAvg' cosAvg' in
  let smoothedDeg := smoothedRad * 180 / PI in
  ({| sinAvg := sinAvg'; cosAvg := cosAvg'; alpha := alpha f |},
   JS.rem (smoothedDeg + 360) 360).

Definition reset (f : t) : t :=
  {| sinAvg := 0; cosAvg := 0; alpha := alpha f |}.

(** Feeding a list of samples in order; the outputs come back in order. *)
Fixpoint run (f : t) (samples : list R) : t * list R :=
  match samples with
  | [] => (f, [])
  | x :: rest =>
      let (f', y) := update f x in
      let (f'', ys) := run f' rest in
      (f'', y :: ys)
  end.

End AngleFilter.

(** ** atan2 recovers the angle of a scaled point of the unit circle *)

Section Polar.

Lemma sin_period_Z (x : R) (m : Z) : sin (x + 2 * IZR m * PI) = sin x.
Proof.
  destruct (Z_le_gt_dec 0 m) as [Hm | Hm].
  - rewrite <- (Z2Nat.id m) by exact Hm. rewrite <- INR_IZR_INZ.
    apply sin_period.
  - rewrite <- (sin_period (x + 2 * IZR m * PI) (Z.to_nat (- m))).
    f_equal. rewrite INR_IZR_INZ, Z2Nat.id by lia. rewrite opp_IZR. ring.
Qed.

Lemma cos_period_Z (x : R) (m : Z) : cos (x + 2 * IZR m * PI) = cos x.
Proof.
  destruct (Z_le_gt_dec 0 m) as [Hm | Hm].
  - rewrite <- (Z2Nat.id m) by exact Hm. rewrite <- INR_IZR_INZ.
    apply cos_period.
  - rewrite <- (cos_period (x + 2 * IZR m * PI) (Z.to_nat (- m))).
    f_equal. rewrite INR_IZR_INZ, Z2Nat.id by lia. rewrite opp_IZR. ring.
Qed.

Lemma atan2_right_half (y x : R) : 0 < x -> JS.atan2 y x = atan (y / x).
Proof. intros H. unfold JS.atan2. destruct (Rlt_dec 0 x); [reflexivity | lra]. Qed.

Lemma atan2_polar (k t : R) :
  0 < k -> - PI < t <= PI -> JS.atan2 (k * sin t) (k * cos t) = t.
Proof.
  intros Hk [Hlo Hhi]. pose proof PI_RGT_0 as Hpi.
  destruct (Rlt_dec t (- (PI / 2))) as [H1 | H1].
  { (* third quadrant *)
    assert (Hs : sin t < 0) by (apply sin_lt_0_var; lra).
    assert (Hc' : 0 < cos (t + PI)) by (apply cos_gt_0; lra).
    pose proof (neg_cos t) as Hnc. pose proof (neg_sin t) as Hns.
    assert (Hc : cos t < 0) by lra.
    unfold JS.atan2.
    destruct (Rlt_dec 0 (k * cos t)); [nra |].
    destruct (Rlt_dec (k * cos t) 0); [| nra].
    destruct (Rle_dec 0 (k * sin t)); [nra |].
    replace (k * sin t / (k * cos t)) with (tan (t + PI)).
    - rewrite atan_tan by lra. lra.
    - unfold tan. rewrite Hnc, Hns. field. lra. }
  destruct (Req_dec t (- (PI / 2))) as [H2 | H2].
  { subst t. rewrite sin_neg, cos_neg, sin_PI2, cos_PI2.
    unfold JS.atan2.
    destruct (Rlt_dec 0 (k * 0)); [lra |].
    destruct (Rlt_dec (k * 0) 0); [lra |].
    destruct (Rlt_dec 0 (k * - (1))); [lra |].
    destruct (Rlt_dec (k * - (1)) 0); [reflexivity | lra]. }
  destruct (Rlt_dec t (PI / 2)) as [H3 | H3].
  { (* right half plane *)
    assert (Hc : 0 < cos t) by (apply cos_gt_0; lra).
    rewrite atan2_right_half by nra.
    replace (k * sin t / (k * cos t)) with (tan t)
      by (unfold tan; field; lra).
    apply atan_tan. lra. }
  destruct (Req_dec t (PI / 2)) as [H4 | H4].
  { subst t. rewrite sin_PI2, cos_PI2.
    unfold JS.atan2.
    destruct (Rlt_dec 0 (k * 0)); [lra |].
    destruct (Rlt_dec (k * 0) 0); [lra |].
    destruct (Rlt_dec 0 (k * 1)); [reflexivity | lra]. }
  (* second quadrant *)
  assert (Hs : 0 <= sin t) by (apply sin_ge_0; lra).
  assert (Hc : cos t < 0) by (apply cos_lt_0; lra).
  pose proof (neg_cos (t - PI)) as Hnc. pose proof (neg_sin (t - PI)) as Hns.
  replace (t - PI + PI) with t in Hnc, Hns by ring.
  unfold JS.atan2.
  destruct (Rlt_dec 0 (k * cos t)); [nra |].
  destruct (Rlt_dec (k * cos t) 0); [| nra].
  destruct (Rle_dec 0 (k * sin t)); [| nra].
  replace (k * sin t / (k * cos t)) with (tan (t - PI)).
  - rewrite atan_tan by lra. lra.
  - unfold tan. rewrite Hnc, Hns. field. lra.
Qed.

(** In degrees, through the filter's final normalization: a point at angle
    [theta] (any real number of degrees) and positive radius is read back as
    [normalizeAngle theta]. *)
Lemma polar_readback (k theta : R) :
  0 < k ->
  JS.rem (JS.atan2 (k * sin (theta * PI / 180)) (k * cos (theta * PI / 180))
          * 180 / PI + 360) 360
  = normalizeAngle theta.
Proof.
  intros Hk. pose proof PI_RGT_0 as Hpi.
  pose proof (normalizeAngle_range theta) as Hq.
  destruct (normalizeAngle_congr theta) as [m Hm].
  set (q := normalizeAngle theta) in *.
  destruct (Rle_dec q 180) as [Hle | Hgt].
  - assert (E : theta * PI / 180 = q * PI / 180 + 2 * IZR m * PI)
      by (rewrite Hm; field).
    rewrite E, sin_period_Z, cos_period_Z.
    rewrite atan2_polar; [| exact Hk |].
    + replace (q * PI / 180 * 180 / PI + 360) with (q + IZR 1 * 360)
        by (field; lra).
      apply rem_nonneg; (lra || lia).
    + split; [apply Rlt_le_trans with 0; [lra |] |].
      * apply Rmult_le_pos; [| lra]. apply Rmult_le_pos; lra.
      * apply Rmult_le_reg_r with (180 / PI).
        { apply Rdiv_lt_0_compat; lra. }
        replace (q * PI / 180 * (180 / PI)) with q by (field; lra).
        replace (PI * (180 / PI)) with 180 by (field; lra). exact Hle.
  - assert (E : theta * PI / 180 =
                (q - 360) * PI / 180 + 2 * IZR (m + 1) * PI)
      by (rewrite Hm, plus_IZR; field).
    rewrite E, sin_period_Z, cos_period_Z.
    rewrite atan2_polar; [| exact Hk |].
    + replace ((q - 360) * PI / 180 * 180 / PI + 360) with (q + IZR 0 * 360)
        by (field; lra).
      apply rem_nonneg; (lra || lia).
    + assert (Hscale : forall u v, u < v -> u * PI / 180 < v * PI / 180).
      { intros u v Huv. unfold Rdiv.
        apply Rmult_lt_compat_r; [lra |].
        apply Rmult_lt_compat_r; lra. }
      pose proof (Hscale (-180) (q - 360) ltac:(lra)) as L1.
      pose proof (Hscale (q - 360) 180 ltac:(lra)) as L2.
      replace (-180 * PI / 180) with (- PI) in L1 by field.
      replace (180 * PI / 180) with PI in L2 by field.
      lra.
Qed.

End Polar.

(** ** The circular filter on a fresh state *)

Section AngleFilterFresh.

Lemma clamp_range (a : R) : 0 <= JS.max 0 (JS.min 1 a) <= 1.
Proof.
  unfold JS.max, JS.min, Rmax, Rmin.
  destruct (Rle_dec 1 a); destruct (Rle_dec 0 _); lra.
Qed.

Lemma clamp_pos (a : R) : 0 < a -> 0 < JS.max 0 (JS.min 1 a).
Proof.
  intros Ha. unfold JS.max, JS.min, Rmax, Rmin.
  destruct (Rle_dec 1 a); destruct (Rle_dec 0 _); lra.
Qed.


Lemma update_alpha (f : AngleFilter.t) (x : R) :
  AngleFilter.alpha (fst (AngleFilter.update f x)) = AngleFilter.alpha f.
Proof. reflexivity. Qed.


(** A state whose accumulators are a positive multiple of the unit vector at
    [theta] degrees. *)
Definition aligned (f : AngleFilter.t) (theta : R) : Prop :=
  exists k, 0 < k /\
    AngleFilter.sinAvg f = k * sin (theta * PI / 180) /\
    AngleFilter.cosAvg f = k * cos (theta * PI / 180).

Definition zeroed (f : AngleFilter.t) : Prop :=
  AngleFilter.sinAvg f = 0 /\ AngleFilter.cosAvg f = 0.

Lemma update_aligns (f : AngleFilter.t) (theta : R) :
  0 < AngleFilter.alpha f <= 1 ->
  zeroed f \/ aligned f theta ->
  aligned (fst (AngleFilter.update f theta)) theta /\
  snd (AngleFilter.update f theta) = normalizeAngle theta.
Proof.
  intros Ha Hstate.
  assert (Hk : exists k, 0 < k /\
     AngleFilter.alpha f * sin (theta * PI / 180)
       + (1 - AngleFilter.alpha f) * AngleFilter.sinAvg f
       = k * sin (theta * PI / 180) /\
     AngleFilter.alpha f * cos (theta * PI / 180)
       + (1 - AngleFilter.alpha f) * AngleFilter.cosAvg f
       = k * cos (theta * PI / 180)).
  { destruct Hstate as [[Hs Hc] | (k & Hk & Hs & Hc)].
    - exists (AngleFilter.alpha f). rewrite Hs, Hc.
      split; [lra |]. split; ring.
    - exists (AngleFilter.alpha f + (1 - AngleFilter.alpha f) * k).
      rewrite Hs, Hc. split; [nra |]. split; ring. }
  destruct Hk as (k & Hk & Es & Ec).
  split.
  - exists k. simpl. auto.
  - unfold AngleFilter.update. cbn [snd]. rewrite Es, Ec.
    apply polar_readback, Hk.
Qed.


End AngleFilterFresh.



(** ** The circular filter from an arbitrary state *)

Section AngleFilterConvergence.
















End AngleFilterConvergence.

(** ** Alternating inputs either side of north *)


Section AngleFilterWedge.














End AngleFilterWedge.

(** ** A filter whose clamped factor is 0 never moves *)






(** ** Haversine distance *)







(** ** Subscriber fan-out

    A callback acts on the world outside the service, and either completes
    normally or throws; a throw carries the world as the callback left it. *)

Inductive completion (World : Type) : Type :=
| Normal (w : World)
| Thrown (e : string) (w : World).

Arguments Normal {World} w.
Arguments Thrown {World} e w.

(** [Set.prototype.forEach] over callbacks already closed over their
    arguments: insertion order, no [try]/[catch], so the first throw ends
    the iteration and is the completion of the whole call. *)
Fixpoint forEach {World : Type} (callbacks : list (World -> completion World))
    (w : World) : completion World :=
  match callbacks with
  | [] => Normal w
  | callback :: rest =>
      match callback w with
      | Normal w' => forEach rest w'
      | Thrown e w' => Thrown e w'
      end
  end.

(** A registered function object: its identity and its code. *)
Record Listener (Args World : Type) : Type := mkListener {
  listenerId : nat;
  listenerCall : Args -> World -> completion World
}.

Arguments mkListener {Args World} listenerId listenerCall.
Arguments listenerId {Args World} l.
Arguments listenerCall {Args World} l.

(** [Set.prototype.add]: appended unless the same object is already in. *)
Definition setAdd {Args World : Type} (l : Listener Args World)
    (set : list (Listener Args World)) : list (Listener Args World) :=
  if existsb (fun l' => Nat.eqb (listenerId l') (listenerId l)) set
  then set else set ++ [l].

(** [Set.prototype.delete]. *)
Definition setDelete {Args World : Type} (l : Listener Args World)
    (set : list (Listener Args World)) : list (Listener Args World) :=
  filter (fun l' => negb (Nat.eqb (listenerId l') (listenerId l))) set.

(** ** services/SensorService.ts *)

Record Rotation : Type := mkRotation {
  alpha : R;
  beta : R;
  gamma : R
}.

(** The [data] handed to the DeviceMotion listener; [rotation] may be
    missing. *)
Record DeviceMotionData : Type := mkDeviceMotionData {
  rotation : option Rotation
}.


Module SensorService.

Section WithWorld.

Context {World : Type}.

Definition HeadingListener : Type := Listener (R * R * R) World.

Record t : Type := mk {
  headingFilter : AngleFilter.t;
  pitchFilter : LowPassFilter.t;
  rollFilter : LowPassFilter.t;
  currentHeading : R;
  currentPitch : R;
  currentRoll : R;
  isCalibrated : bool;
  calibrationOffset : R;
  listeners : list HeadingListener
}.

(** The field initializers of the class. *)
Definition new : t :=
  {| headingFilter := AngleFilter.new 0.2;
     pitchFilter := LowPassFilter.new 0.3;
     rollFilter := LowPassFilter.new 0.3;
     currentHeading := 0;
     currentPitch := 0;
     currentRoll := 0;
     isCalibrated := false;
     calibrationOffset := 0;
     listeners := [] |}.

Definition notifyListeners (s : t) (w : World) : completion World :=
  forEach
    (map (fun l => listenerCall l (currentHeading s, currentPitch s, currentRoll s))
         (listeners s))
    w.

Definition processDeviceMotion (data : DeviceMotionData) (s : t) (w : World)
  : t * completion World :=
  match rotation data with
  | Some r =>
      let heading := alpha r * (180 / PI) in
      let (filter', smoothed) :=
        AngleFilter.update (headingFilter s) (normalizeAngle heading) in
      let heading' := normalizeAngle (smoothed + calibrationOffset s) in
      let s' :=
        {| headingFilter := filter';
           pitchFilter := pitchFilter s;
           rollFilter := rollFilter s;
           currentHeading := heading';
           currentPitch := beta r * (180 / PI);
           currentRoll := gamma r * (180 / PI);
           isCalibrated := isCalibrated s;
           calibrationOffset := calibrationOffset s;
           listeners := listeners s |} in
      (s', notifyListeners s' w)
  | None => (s, Normal w)
  end.


Definition calibrate (trueHeading : R) (s : t) : t :=
  {| headingFilter := headingFilter s;
     pitchFilter := pitchFilter s;
     rollFilter := rollFilter s;
     currentHeading := currentHeading s;
     currentPitch := currentPitch s;
     currentRoll := currentRoll s;
     isCalibrated := true;
     calibrationOffset := trueHeading - currentHeading s;
     listeners := listeners s |}.


Definition getCurrentHeading (s : t) : R := currentHeading s.

Definition addListener (l : HeadingListener) (s : t) : t :=
  {| headingFilter := headingFilter s;
     pitchFilter := pitchFilter s;
     rollFilter := rollFilter s;
     currentHeading := currentHeading s;
     currentPitch := currentPitch s;
     currentRoll := currentRoll s;
     isCalibrated := isCalibrated s;
     calibrationOffset := calibrationOffset s;
     listeners := setAdd l (listeners s) |}.

(** The function [addListener] returns. *)
Definition unsubscribe (l : HeadingListener) (s : t) : t :=
  {| headingFilter := headingFilter s;
     pitchFilter := pitchFilter s;
     rollFilter := rollFilter s;
     currentHeading := currentHeading s;
     currentPitch := currentPitch s;
     currentRoll := currentRoll s;
     isCalibrated := isCalibrated s;
     calibrationOffset := calibrationOffset s;
     listeners := setDelete l (listeners s) |}.

End WithWorld.

Arguments t World : clear implicits.
Arguments HeadingListener World : clear implicits.

End SensorService.

(** ** services/LocationService.ts *)

Module LocationService.

Section WithWorld.

Context {World : Type}.

Definition LocationListener : Type := Listener Coordinates World.

Record t : Type := mk {
  currentLocation : option Coordinates;
  listeners : list LocationListener
}.

Definition new : t := {| currentLocation := None; listeners := [] |}.

(** The callback [startWatching] hands to [watchPositionAsync]; it runs
    later, from the position source, outside the [try] of [startWatching]. *)
Definition onPosition (coords : Coordinates) (s : t) (w : World)
  : t * completion World :=
  let newLocation :=
    {| latitude := latitude coords; longitude := longitude coords |} in
  let s' := {| currentLocation := Some newLocation; listeners := listeners s |} in
  (s', forEach (map (fun l => listenerCall l newLocation) (listeners s')) w).

Definition addListener (l : LocationListener) (s : t) : t :=
  {| currentLocation := currentLocation s;
     listeners := setAdd l (listeners s) |}.

Definition unsubscribe (l : LocationListener) (s : t) : t :=
  {| currentLocation := currentLocation s;
     listeners := setDelete l (listeners s) |}.

Definition getLastKnownLocation (s : t) : option Coordinates :=
  currentLocation s.

End WithWorld.

Arguments t World : clear implicits.
Arguments LocationListener World : clear implicits.

End LocationService.

(** ** Exceptions thrown by subscribers *)

Section FanOut.

Context {World : Type}.

Lemma forEach_app_thrown (before after : list (World -> completion World))
    (callback : World -> completion World) (w w1 w2 : World) (e : string) :
  forEach before w = Normal w1 ->
  callback w1 = Thrown e w2 ->
  forEach (before ++ callback :: after) w = Thrown e w2.
Proof.
  revert w. induction before as [| c rest IH]; intros w Hb Hc.
  - simpl in *. injection Hb as <-. rewrite Hc. reflexivity.
  - simpl in *. destruct (c w) as [w' | e' w']; [| discriminate].
    apply IH; assumption.
Qed.

End FanOut.

(** A subscriber that always throws, and one that records the heading it
    was called with. *)
Definition failingListener {Args : Type} (id : nat) : Listener Args (list R) :=
  mkListener id (fun _ w => Thrown "subscriber failed" w).

Definition recordingListener (id : nat) : Listener (R * R * R) (list R) :=
  mkListener id (fun args w => Normal (fst (fst args) :: w)).

Definition northSample : DeviceMotionData :=
  {| rotation := Some {| alpha := 0; beta := 0; gamma := 0 |} |}.

(** C5 (as the claim states it, refuted). Fan-out has no [try]/[catch]:
    with one throwing subscriber registered, the ingest of a sample does not
    return normally, it completes with the subscriber's exception. *)
Lemma throwing_subscriber_aborts_ingest :
  snd (SensorService.processDeviceMotion northSample
         (SensorService.addListener (failingListener 0) SensorService.new) [])
  = Thrown "subscriber failed" [] /\
  snd (LocationService.onPosition TARGET_LOCATION
         (LocationService.addListener (failingListener 0) LocationService.new) [])
  = Thrown "subscriber failed" [] /\
  ~ (forall (s : SensorService.t (list R)) (data : DeviceMotionData) (w : list R),
       exists w', snd (SensorService.processDeviceMotion data s w) = Normal w').
Proof.
  assert (E : snd (SensorService.processDeviceMotion northSample
                (SensorService.addListener (failingListener 0) SensorService.new) [])
              = Thrown "subscriber failed" []) by reflexivity.
  split; [exact E |]. split; [reflexivity |].
  intros H.
  destruct (H (SensorService.addListener (failingListener 0) SensorService.new)
              northSample []) as [w' Hw'].
  rewrite E in Hw'. discriminate.
Qed.

(** C5 (amended). When the subscribers registered before [l] have been
    served and [l] throws, the ingest itself completes with that exception
    (nothing catches it), the subscribers registered after [l] are not
    called for this event, and the state written before the fan-out stays:
    the new current heading in the sensor service, the new last-known
    location in the location service. *)
Theorem subscriber_throw_propagates :
  (forall (World : Type) (s : SensorService.t World) (data : DeviceMotionData)
          (r : Rotation)
          (before after : list (SensorService.HeadingListener World))
          (l : SensorService.HeadingListener World)
          (w w1 w2 : World) (e : string),
     rotation data = Some r ->
     SensorService.listeners s = before ++ l :: after ->
     let s' := fst (SensorService.processDeviceMotion data s w) in
     let args := (SensorService.currentHeading s',
                  SensorService.currentPitch s',
                  SensorService.currentRoll s') in
     forEach (map (fun l' => listenerCall l' args) before) w = Normal w1 ->
     listenerCall l args w1 = Thrown e w2 ->
     snd (SensorService.processDeviceMotion data s w) = Thrown e w2 /\
     SensorService.getCurrentHeading s' =
       normalizeAngle
         (snd (AngleFilter.update (SensorService.headingFilter s)
                 (normalizeAngle (alpha r * (180 / PI))))
          + SensorService.calibrationOffset s) /\
     SensorService.listeners s' = SensorService.listeners s) /\
  (forall (World : Type) (s : LocationService.t World) (coords : Coordinates)
          (before after : list (LocationService.LocationListener World))
          (l : LocationService.LocationListener World)
          (w w1 w2 : World) (e : string),
     LocationService.listeners s = before ++ l :: after ->
     forEach (map (fun l' => listenerCall l' coords) before) w = Normal w1 ->
     listenerCall l coords w1 = Thrown e w2 ->
     snd (LocationService.onPosition coords s w) = Thrown e w2 /\
     LocationService.getLastKnownLocation
       (fst (LocationService.onPosition coords s w)) = Some coords /\
     LocationService.listeners (fst (LocationService.onPosition coords s w)) =
       LocationService.listeners s).
Proof.
  split.
  - intros World s data r before after l w w1 w2 e Hr Hl s' args Hb Hthrow.
    subst s' args.
    unfold SensorService.processDeviceMotion in *. rewrite Hr in *.
    destruct (AngleFilter.update (SensorService.headingFilter s)
                (normalizeAngle (alpha r * (180 / PI)))) as [f' out] eqn:Hu.
    cbn [fst snd] in *.
    unfold SensorService.notifyListeners, SensorService.getCurrentHeading.
    cbn [SensorService.currentHeading SensorService.currentPitch
         SensorService.currentRoll SensorService.listeners] in *.
    split; [| split; reflexivity].
    rewrite Hl, map_app. cbn [map].
    eapply forEach_app_thrown; eassumption.
  - intros World s coords before after l w w1 w2 e Hl Hb Hthrow.
    unfold LocationService.onPosition, LocationService.getLastKnownLocation.
    cbn [fst snd LocationService.currentLocation LocationService.listeners].
    destruct coords as [lat lon]. cbn [latitude longitude].
    split; [| split; reflexivity].
    rewrite Hl, map_app. cbn [map].
    eapply forEach_app_thrown; eassumption.
Qed.

Lemma subscriber_throw_propagates_witness :
  let s : SensorService.t (list R) :=
    SensorService.addListener (recordingListener 2)
      (SensorService.addListener (failingListener 0)
         (SensorService.addListener (recordingListener 1) SensorService.new)) in
  let s' := fst (SensorService.processDeviceMotion northSample s []) in
  snd (SensorService.processDeviceMotion northSample s []) =
    Thrown "subscriber failed" [SensorService.currentHeading s'] /\
  SensorService.getCurrentHeading s' =
    normalizeAngle
      (snd (AngleFilter.update (SensorService.headingFilter s)
              (normalizeAngle (0 * (180 / PI))))
       + SensorService.calibrationOffset s) /\
  SensorService.listeners s' = SensorService.listeners s.
Proof.
  intros s s'.
  refine (proj1 subscriber_throw_propagates (list R) s northSample
            {| alpha := 0; beta := 0; gamma := 0 |}
            [recordingListener 1] [recordingListener 2] (failingListener 0)
            [] [SensorService.currentHeading s'] [SensorService.currentHeading s']
            "subscriber failed"%string _ _ _ _); reflexivity.
Defined.

(** ** Calibration *)

Section Calibration.

Context {World : Type}.

Lemma normalizeAngle_idem (q : R) : 0 <= q < 360 -> normalizeAngle q = q.
Proof.
  intros Hq. replace q with (q + IZR 0 * 360) at 1 by lra.
  apply normalizeAngle_unique, Hq.
Qed.


(** The heading the sensor service stores for a sample its filter has
    settled on (or meets from the reset state). *)
Lemma processDeviceMotion_settled (s : SensorService.t World)
    (data : DeviceMotionData) (r : Rotation) (w : World) :
  rotation data = Some r ->
  0 < AngleFilter.alpha (SensorService.headingFilter s) <= 1 ->
  zeroed (SensorService.headingFilter s) \/
  aligned (SensorService.headingFilter s)
          (normalizeAngle (alpha r * (180 / PI))) ->
  let s' := fst (SensorService.processDeviceMotion data s w) in
  SensorService.currentHeading s' =
    normalizeAngle (normalizeAngle (alpha r * (180 / PI))
                    + SensorService.calibrationOffset s) /\
  SensorService.calibrationOffset s' = SensorService.calibrationOffset s /\
  0 < AngleFilter.alpha (SensorService.headingFilter s') <= 1 /\
  aligned (SensorService.headingFilter s')
          (normalizeAngle (alpha r * (180 / PI))).
Proof.
  intros Hr Ha Hstate s'. subst s'.
  unfold SensorService.processDeviceMotion. rewrite Hr.
  destruct (update_aligns _ (normalizeAngle (alpha r * (180 / PI))) Ha Hstate)
    as [Hal Hout].
  pose proof (update_alpha (SensorService.headingFilter s)
                (normalizeAngle (alpha r * (180 / PI)))) as Halpha.
  destruct (AngleFilter.update (SensorService.headingFilter s)
              (normalizeAngle (alpha r * (180 / PI)))) as [f' out].
  cbn [fst snd SensorService.currentHeading SensorService.calibrationOffset
       SensorService.headingFilter] in *.
  rewrite Hout.
  rewrite (normalizeAngle_idem (normalizeAngle (alpha r * (180 / PI))))
    by apply normalizeAngle_range.
  rewrite Halpha. auto.
Qed.


End Calibration.

(** A device whose fused rotation reads a quarter turn, 90 degrees. *)
Definition eastSample : DeviceMotionData :=
  {| rotation := Some {| alpha := PI / 2; beta := 0; gamma := 0 |} |}.

(** C2 (the code at the failing input). The device reads 90 degrees while
    the true heading is 100. The first [calibrate 100] sets the offset to
    10 and the repeated sample shows 100. A second [calibrate 100], with
    that calibration in force, subtracts the already corrected heading:
    the offset becomes 0 and the repeated sample shows 90, not 100. *)
Theorem recalibration_misses_true_heading :
  let s1 : SensorService.t unit :=
    fst (SensorService.processDeviceMotion eastSample SensorService.new tt) in
  let s2 :=
    fst (SensorService.processDeviceMotion eastSample
           (SensorService.calibrate 100 s1) tt) in
  let s3 :=
    fst (SensorService.processDeviceMotion eastSample
           (SensorService.calibrate 100 s2) tt) in
  SensorService.currentHeading s1 = 90 /\
  SensorService.calibrationOffset (SensorService.calibrate 100 s1) = 10 /\
  SensorService.currentHeading s2 = 100 /\
  SensorService.calibrationOffset (SensorService.calibrate 100 s2) = 0 /\
  SensorService.currentHeading s3 = 90 /\
  SensorService.currentHeading s3 <> 100.
Proof.
  intros s1 s2 s3. pose proof PI_RGT_0 as Hpi.
  set (r := {| alpha := PI / 2; beta := 0; gamma := 0 |}).
  assert (Hr : rotation eastSample = Some r) by reflexivity.
  assert (Hdeg : normalizeAngle (alpha r * (180 / PI)) = 90).
  { replace (alpha r * (180 / PI)) with 90 by (unfold r; simpl; field; lra).
    apply normalizeAngle_idem. lra. }
  assert (Hn : forall x, 0 <= x < 360 -> normalizeAngle x = x)
    by exact normalizeAngle_idem.
  (* first sample, from the fresh service *)
  destruct (processDeviceMotion_settled (World := unit)
              SensorService.new eastSample r tt Hr)
    as (H1 & O1 & A1 & L1).
  { pose proof (clamp_pos 0.2 ltac:(lra)). pose proof (clamp_range 0.2).
    simpl. lra. }
  { left. split; reflexivity. }
  fold s1 in H1, O1, A1, L1. rewrite Hdeg in H1, L1.
  change (SensorService.calibrationOffset SensorService.new) with 0 in H1, O1.
  rewrite Hn in H1 by lra.
  (* first calibration and repeat *)
  destruct (processDeviceMotion_settled (SensorService.calibrate 100 s1)
              eastSample r tt Hr A1)
    as (H2 & O2 & A2 & L2).
  { right. rewrite Hdeg. exact L1. }
  fold s2 in H2, O2, A2, L2. rewrite Hdeg in H2, L2.
  assert (C1 : SensorService.calibrationOffset (SensorService.calibrate 100 s1)
               = 10).
  { cbn [SensorService.calibrate SensorService.calibrationOffset].
    rewrite H1. lra. }
  rewrite C1 in H2, O2. rewrite Hn in H2 by lra.
  (* second calibration and repeat *)
  destruct (processDeviceMotion_settled (SensorService.calibrate 100 s2)
              eastSample r tt Hr A2)
    as (H3 & O3 & A3 & L3).
  { right. rewrite Hdeg. exact L2. }
  fold s3 in H3, O3, A3, L3. rewrite Hdeg in H3.
  assert (C2 : SensorService.calibrationOffset (SensorService.calibrate 100 s2)
               = 0).
  { cbn [SensorService.calibrate SensorService.calibrationOffset].
    rewrite H2. lra. }
  rewrite C2 in H3. rewrite Hn in H3 by lra.
  repeat split; try assumption; lra.
Qed.

(** * Further properties of the geodesy functions *)

Section AngleAlgebra.


Lemma while_above_result (n : nat) (d r : R) :
  while_above n d = Some r ->
  r <= 180 /\
  exists k : Z, r = d + IZR k * 360 /\
                (180 < d -> -180 < r) /\ (d <= 180 -> r = d).
Proof.
  revert d. induction n as [| n IH]; intros d H; [discriminate |].
  simpl in H. destruct (Rlt_dec 180 d) as [Hgt | Hle].
  - destruct (IH _ H) as (Hub & k & Hk & Hbig & Hsmall).
    split; [exact Hub |]. exists (k - 1)%Z. rewrite minus_IZR.
    split; [lra |]. split; [| lra].
    intros _. destruct (Rlt_dec 180 (d - 360)) as [H1 | H1].
    + apply Hbig, H1.
    + rewrite Hsmall by lra. lra.
  - injection H as <-. split; [lra |]. exists 0%Z.
    split; [lra |]. split; [lra | reflexivity].
Qed.

Lemma while_below_result (n : nat) (d r : R) :
  while_below n d = Some r ->
  -180 <= r /\
  exists k : Z, r = d + IZR k * 360 /\
                (d < -180 -> r < 180) /\ (-180 <= d -> r = d).
Proof.
  revert d. induction n as [| n IH]; intros d H; [discriminate |].
  simpl in H. destruct (Rlt_dec d (-180)) as [Hlt | Hge].
  - destruct (IH _ H) as (Hlb & k & Hk & Hbig & Hsmall).
    split; [exact Hlb |]. exists (k + 1)%Z. rewrite plus_IZR.
    split; [lra |]. split; [| lra].
    intros _. destruct (Rlt_dec (d + 360) (-180)) as [H1 | H1].
    + apply Hbig, H1.
    + rewrite Hsmall by lra. lra.
  - injection H as <-. split; [lra |]. exists 0%Z.
    split; [lra |]. split; [lra | reflexivity].
Qed.

(** What the two loops compute: the difference moved by whole turns into
    [[-180, 180]], the end nearer the starting side being excluded. *)
Definition wrapped (d r : R) : Prop :=
  -180 <= r <= 180 /\
  (exists k : Z, r = d + IZR k * 360) /\
  (180 < d -> -180 < r) /\
  (d < -180 -> r < 180) /\
  (-180 <= d <= 180 -> r = d).

Lemma angleDifference_wrapped (a b : R) : wrapped (b - a) (angleDifference a b).
Proof.
  destruct (angleDifference_fuel_enough a b) as (r & Hr & Hrange).
  rewrite (angleDifference_eval _ _ _ _ Hr).
  unfold angleDifference_fuel in Hr.
  destruct (while_above _ (b - a)) as [d1 |] eqn:Habove; [| discriminate].
  destruct (while_above_result _ _ _ Habove) as (Hub & k1 & Hk1 & Hbig1 & Hsmall1).
  destruct (while_below_result _ _ _ Hr) as (Hlb & k2 & Hk2 & Hbig2 & Hsmall2).
  unfold wrapped. split; [exact Hrange |]. split; [| split; [| split]].
  - exists (k1 + k2)%Z. rewrite plus_IZR. lra.
  - intros Hd. specialize (Hbig1 Hd). rewrite Hsmall2 by lra. exact Hbig1.
  - intros Hd. rewrite Hsmall1 in * by lra. apply Hbig2, Hd.
  - intros Hd. rewrite Hsmall2; rewrite Hsmall1 by lra; lra.
Qed.

Lemma wrapped_unique (d r1 r2 : R) : wrapped d r1 -> wrapped d r2 -> r1 = r2.
Proof.
  intros (R1 & [k1 E1] & A1 & B1 & C1) (R2 & [k2 E2] & A2 & B2 & C2).
  assert (Hk : r1 - r2 = IZR (k1 - k2) * 360) by (rewrite minus_IZR; lra).
  assert (Hz : (-1 <= k1 - k2 <= 1)%Z).
  { split.
    - apply le_IZR. apply Rnot_lt_le. intros Hlt.
      assert (IZR (k1 - k2) <= -2) by (apply IZR_le; apply lt_IZR in Hlt; lia).
      lra.
    - apply le_IZR. apply Rnot_lt_le. intros Hlt.
      assert (2 <= IZR (k1 - k2)) by (apply IZR_le; apply lt_IZR in Hlt; lia).
      lra. }
  assert (Hcases : (k1 - k2 = -1 \/ k1 - k2 = 0 \/ k1 - k2 = 1)%Z) by lia.
  destruct Hcases as [E | [E | E]]; rewrite E in Hk.
  - destruct (Rlt_dec 180 d); [specialize (A1 ltac:(lra)); lra |].
    destruct (Rlt_dec d (-180)); [specialize (B2 ltac:(lra)); lra |].
    rewrite C1, C2 by lra. reflexivity.
  - lra.
  - destruct (Rlt_dec 180 d); [specialize (A2 ltac:(lra)); lra |].
    destruct (Rlt_dec d (-180)); [specialize (B1 ltac:(lra)); lra |].
    rewrite C1, C2 by lra. reflexivity.
Qed.


(** X3. The rotation from [b] back to [a] is the opposite of the rotation from
    [a] to [b], also at the two ends of the interval. *)
Theorem angleDifference_antisymmetric (a b : R) :
  angleDifference b a = - angleDifference a b.
Proof.
  apply (wrapped_unique (a - b)); [apply angleDifference_wrapped |].
  destruct (angleDifference_wrapped a b) as (Hr & [k Hk] & A & B & C).
  unfold wrapped. split; [lra |]. split; [| split; [| split]].
  - exists (- k)%Z. rewrite opp_IZR. lra.
  - intros Hd. specialize (B ltac:(lra)). lra.
  - intros Hd. specialize (A ltac:(lra)). lra.
  - intros Hd. rewrite C by lra. ring.
Qed.


End AngleAlgebra.

(** * Bearing and distance *)

Section BearingDistance.


















End BearingDistance.

(** * Further properties of the filters *)

Section AngleFilterBounds.






End AngleFilterBounds.

(** ** Exponential low-pass *)


Section LowPass.











End LowPass.

(** ** Kalman-style scalar estimator *)

Module KalmanFilter.

Record t : Type := mk {
  estimate : option R;
  errorEstimate : R;
  processNoise : R;
  measurementNoise : R
}.

Definition new (processNoise measurementNoise : R) : t :=
  {| estimate := None;
     errorEstimate := 1;
     processNoise := processNoise;
     measurementNoise := measurementNoise |}.

(** The gain is a quotient; the model follows the source wherever the
    divisor [predictedError + measurementNoise] is not 0. *)
Definition update (f : t) (measurement : R) : t * R :=
  match estimate f with
  | None =>
      ({| estimate := Some measurement;
          errorEstimate := errorEstimate f;
          processNoise := processNoise f;
          measurementNoise := measurementNoise f |}, measurement)
  | Some predictedEstimate =>
      let predictedError := errorEstimate f + processNoise f in
      let kalmanGain := predictedError / (predictedError + measurementNoise f) in
      let estimate' :=
        predictedEstimate + kalmanGain * (measurement - predictedEstimate) in
      ({| estimate := Some estimate';
          errorEstimate := (1 - kalmanGain) * predictedError;
          processNoise := processNoise f;
          measurementNoise := measurementNoise f |}, estimate')
  end.

Definition reset (f : t) : t :=
  {| estimate := None;
     errorEstimate := 1;
     processNoise := processNoise f;
     measurementNoise := measurementNoise f |}.

Fixpoint run (f : t) (samples : list R) : t * list R :=
  match samples with
  | [] => (f, [])
  | x :: rest =>
      let (f', y) := update f x in
      let (f'', ys) := run f' rest in
      (f'', y :: ys)
  end.

End KalmanFilter.

Section Kalman.









End Kalman.

(** ** Complementary filter *)

Module ComplementaryFilter.

Record t : Type := mk {
  value : R;
  alpha : R
}.

Definition new (alpha : R) : t :=
  {| value := 0; alpha := JS.max 0 (JS.min 1 alpha) |}.

Definition update (f : t) (gyroValue accelMagValue dt : R) : t * R :=
  let gyroContribution := value f + gyroValue * dt in
  let value' := alpha f * gyroContribution + (1 - alpha f) * accelMagValue in
  ({| value := value'; alpha := alpha f |}, value').

Definition reset (f : t) : t := {| value := 0; alpha := alpha f |}.

(** One sample: gyroscope rate, absolute reading, time step. *)
Fixpoint run (f : t) (samples : list (R * R * R)) : t * list R :=
  match samples with
  | [] => (f, [])
  | (gyroValue, accelMagValue, dt) :: rest =>
      let (f', y) := update f gyroValue accelMagValue dt in
      let (f'', ys) := run f' rest in
      (f'', y :: ys)
  end.

End ComplementaryFilter.

Section Complementary.





End Complementary.

(** ** Moving average *)

Module MovingAverageFilter.

Record t : Type := mk {
  buffer : list R;
  windowSize : R
}.

Definition new (windowSize : R) : t :=
  {| buffer := []; windowSize := JS.max 1 windowSize |}.

(** [push], then [shift] when the buffer has outgrown the window, then the
    [reduce] sum over the buffer divided by its length. *)
Definition update (f : t) (value : R) : t * R :=
  let pushed := buffer f ++ [value] in
  let buffer' :=
    if Rlt_dec (windowSize f) (INR (List.length pushed)) then tl pushed else pushed in
  let sum := fold_left (fun acc val => acc + val) buffer' 0 in
  ({| buffer := buffer'; windowSize := windowSize f |},
   sum / INR (List.length buffer')).

Definition reset (f : t) : t := {| buffer := []; windowSize := windowSize f |}.

Fixpoint run (f : t) (samples : list R) : t * list R :=
  match samples with
  | [] => (f, [])
  | x :: rest =>
      let (f', y) := update f x in
      let (f'', ys) := run f' rest in
      (f'', y :: ys)
  end.

End MovingAverageFilter.

(** The arithmetic mean as [update] computes it. *)
Definition mean (l : list R) : R :=
  fold_left (fun acc val => acc + val) l 0 / INR (List.length l).

(** The last [w] elements of a list (all of it when it is shorter). *)
Definition lastn {A : Type} (w : nat) (l : list A) : list A :=
  skipn (List.length l - w) l.

Section MovingAverage.

Lemma movingAverage_run_snoc (f : MovingAverageFilter.t) (samples : list R)
    (x : R) :
  MovingAverageFilter.run f (samples ++ [x]) =
  (fst (MovingAverageFilter.update (fst (MovingAverageFilter.run f samples)) x),
   snd (MovingAverageFilter.run f samples) ++
     [snd (MovingAverageFilter.update
             (fst (MovingAverageFilter.run f samples)) x)]).
Proof.
  revert f. induction samples as [| y rest IH]; intros f.
  - reflexivity.
  - cbn [app MovingAverageFilter.run].
    destruct (MovingAverageFilter.update f y) as [f' out].
    rewrite IH. destruct (MovingAverageFilter.run f' rest) as [f'' outs].
    reflexivity.
Qed.

Lemma movingAverage_run_window (f : MovingAverageFilter.t) (samples : list R) :
  MovingAverageFilter.windowSize (fst (MovingAverageFilter.run f samples)) =
  MovingAverageFilter.windowSize f.
Proof.
  revert f. induction samples as [| x rest IH]; intros f; [reflexivity |].
  cbn [MovingAverageFilter.run].
  pose proof (IH (fst (MovingAverageFilter.update f x))) as IH'.
  destruct (MovingAverageFilter.update f x) as [f' y] eqn:Hu.
  assert (Hw : MovingAverageFilter.windowSize f' = MovingAverageFilter.windowSize f).
  { replace f' with (fst (MovingAverageFilter.update f x))
      by (rewrite Hu; reflexivity).
    reflexivity. }
  cbn [fst] in IH'.
  destruct (MovingAverageFilter.run f' rest) as [f'' ys].
  cbn [fst] in *. congruence.
Qed.

Lemma skipn_S_tl (n : nat) (l : list R) : skipn (S n) l = tl (skipn n l).
Proof.
  revert l. induction n as [| n IH]; intros l.
  - destruct l; reflexivity.
  - destruct l as [| y l']; [reflexivity |]. cbn [skipn]. apply IH.
Qed.

Lemma lastn_snoc (w : nat) (l : list R) (x : R) :
  (1 <= w)%nat ->
  lastn w (l ++ [x]) =
  if Nat.ltb w (S (List.length l)) then tl (lastn w l ++ [x]) else lastn w l ++ [x].
Proof.
  intros Hw. unfold lastn. rewrite length_app. cbn [List.length].
  destruct (Nat.ltb w (S (List.length l))) eqn:Hcmp.
  - apply Nat.ltb_lt in Hcmp.
    replace (List.length l + 1 - w)%nat with (S (List.length l - w)) by lia.
    rewrite skipn_app.
    replace (S (List.length l - w) - List.length l)%nat with 0%nat by lia.
    change (skipn 0 [x]) with [x].
    assert (Hne : skipn (List.length l - w) l <> []).
    { intros E. apply (f_equal (@List.length R)) in E.
      rewrite length_skipn in E. simpl in E. lia. }
    rewrite skipn_S_tl.
    destruct (skipn (List.length l - w) l) as [| y ys] eqn:Hs; [congruence |].
    reflexivity.
  - apply Nat.ltb_ge in Hcmp.
    replace (List.length l + 1 - w)%nat with 0%nat by lia.
    replace (List.length l - w)%nat with 0%nat by lia.
    reflexivity.
Qed.

Lemma movingAverage_buffer (w : nat) (samples : list R) :
  (1 <= w)%nat ->
  MovingAverageFilter.buffer
    (fst (MovingAverageFilter.run (MovingAverageFilter.new (INR w)) samples)) =
  lastn w samples.
Proof.
  intros Hw.
  induction samples as [| x xs IH] using rev_ind; [reflexivity |].
  rewrite movingAverage_run_snoc. cbn [fst].
  unfold MovingAverageFilter.update. cbn [fst MovingAverageFilter.buffer].
  rewrite IH, movingAverage_run_window.
  cbn [MovingAverageFilter.new MovingAverageFilter.windowSize].
  assert (Hmax : JS.max 1 (INR w) = INR w).
  { unfold JS.max. apply Rmax_right.
    change 1 with (INR 1). apply le_INR. exact Hw. }
  rewrite Hmax, lastn_snoc by exact Hw.
  assert (Hlen : List.length (lastn w xs ++ [x]) = S (Nat.min (List.length xs) w)).
  { unfold lastn. rewrite length_app, length_skipn. simpl. lia. }
  rewrite Hlen.
  destruct (Rlt_dec (INR w) (INR (S (Nat.min (List.length xs) w)))) as [Hlt | Hge].
  - apply INR_lt in Hlt.
    assert (Hb : Nat.ltb w (S (List.length xs)) = true) by (apply Nat.ltb_lt; lia).
    rewrite Hb. reflexivity.
  - assert (Hb : Nat.ltb w (S (List.length xs)) = false).
    { apply Nat.ltb_ge. apply Nat.nlt_ge. intros Hlt. apply Hge.
      apply lt_INR. lia. }
    rewrite Hb. reflexivity.
Qed.

(** X17. With a whole window size [w >= 1], the buffer after any samples is the
    last [w] of them, and each output is the arithmetic mean of the last [w]
    samples including the new one. *)
Theorem movingAverage_is_mean_of_last_window
    (w : nat) (samples : list R) (x : R) :
  (1 <= w)%nat ->
  let f := fst (MovingAverageFilter.run (MovingAverageFilter.new (INR w)) samples) in
  MovingAverageFilter.buffer f = lastn w samples /\
  snd (MovingAverageFilter.update f x) = mean (lastn w (samples ++ [x])).
Proof.
  intros Hw f. split; [apply movingAverage_buffer, Hw |].
  pose proof (movingAverage_buffer w (samples ++ [x]) Hw) as Hb.
  rewrite movingAverage_run_snoc in Hb. cbn [fst] in Hb. fold f in Hb.
  unfold mean. rewrite <- Hb. reflexivity.
Qed.

Lemma movingAverage_is_mean_of_last_window_witness :
  let f :=
    fst (MovingAverageFilter.run (MovingAverageFilter.new (INR 3)) [1; 2; 3]) in
  MovingAverageFilter.buffer f = lastn 3 [1; 2; 3] /\
  snd (MovingAverageFilter.update f 4) = mean (lastn 3 ([1; 2; 3] ++ [4])).
Proof.
  apply (movingAverage_is_mean_of_last_window 3 [1; 2; 3] 4). lia.
Defined.

End MovingAverage.

Section MovingAverageBounds.






(** X19. A window size below 2 given to the constructor (0, a negative number or
    a fraction included) makes a filter that keeps one sample: every output
    is the sample just fed. *)
Theorem movingAverage_small_window_is_identity
    (w : R) (samples : list R) :
  w < 2 ->
  snd (MovingAverageFilter.run (MovingAverageFilter.new w) samples) = samples.
Proof.
  intros Hw.
  assert (Hgen : forall (l : list R) (f : MovingAverageFilter.t),
    1 <= MovingAverageFilter.windowSize f < 2 ->
    (List.length (MovingAverageFilter.buffer f) <= 1)%nat ->
    snd (MovingAverageFilter.run f l) = l).
  { induction l as [| x rest IH]; intros f Hws Hlen; [reflexivity |].
    cbn [MovingAverageFilter.run].
    assert (Hstep :
      MovingAverageFilter.update f x =
      ({| MovingAverageFilter.buffer := [x];
          MovingAverageFilter.windowSize := MovingAverageFilter.windowSize f |},
       x)).
    { unfold MovingAverageFilter.update.
      destruct (MovingAverageFilter.buffer f) as [| y [| z more]].
      - simpl. destruct (Rlt_dec (MovingAverageFilter.windowSize f) 1); [lra |].
        simpl. f_equal. field.
      - simpl. destruct (Rlt_dec (MovingAverageFilter.windowSize f) (1 + 1));
          [| lra].
        simpl. f_equal. field.
      - simpl in Hlen. lia. }
    rewrite Hstep.
    specialize (IH {| MovingAverageFilter.buffer := [x];
                      MovingAverageFilter.windowSize :=
                        MovingAverageFilter.windowSize f |} Hws ltac:(simpl; lia)).
    destruct (MovingAverageFilter.run _ rest) as [f'' ys]. cbn [snd] in *.
    rewrite IH. reflexivity. }
  apply Hgen; [| simpl; lia].
  simpl. unfold JS.max, Rmax. destruct (Rle_dec 1 w); lra.
Qed.

Lemma movingAverage_small_window_is_identity_witness :
  snd (MovingAverageFilter.run (MovingAverageFilter.new 0) [5; 7; 6]) = [5; 7; 6].
Proof.
  apply (movingAverage_small_window_is_identity 0 [5; 7; 6]). lra.
Defined.

End MovingAverageBounds.

(** * Further properties of the navigation snapshot *)

(** The snapshot that belongs to a last-known location and a last-known
    (normalized) heading. *)
Definition snapshot_of (location : option Coordinates) (heading : option R)
  : NavigationData :=
  {| userLocation := location;
     targetLocation := TARGET_LOCATION;
     distance :=
       option_map (fun l => calculateDistance l TARGET_LOCATION) location;
     bearing :=
       option_map (fun l => calculateBearing l TARGET_LOCATION) location;
     deviceHeading := heading;
     relativeAngle :=
       match heading, location with
       | Some h, Some l =>
           Some (angleDifference h (calculateBearing l TARGET_LOCATION))
       | _, _ => None
       end |}.

(** The latest location among the events, [start] if there is none. *)
Definition lastLocation (start : option Coordinates) (events : list NavEvent)
  : option Coordinates :=
  fold_left (fun acc e =>
               match e with
               | LocationUpdate location => Some location
               | HeadingUpdate _ => acc
               end) events start.

(** The latest heading among the events, normalized. *)
Definition lastHeading (start : option R) (events : list NavEvent) : option R :=
  fold_left (fun acc e =>
               match e with
               | LocationUpdate _ => acc
               | HeadingUpdate heading => Some (normalizeAngle heading)
               end) events start.

Section SnapshotLaws.

Lemma applyEvent_snapshot_of (l : option Coordinates) (h : option R)
    (e : NavEvent) :
  applyEvent (snapshot_of l h) e =
  snapshot_of (lastLocation l [e]) (lastHeading h [e]).
Proof.
  destruct e as [location | heading]; simpl.
  - unfold updateLocation, snapshot_of. simpl. destruct h; reflexivity.
  - unfold updateDeviceHeading, snapshot_of. simpl. destruct l; reflexivity.
Qed.

Lemma fold_applyEvent_snapshot_of (events : list NavEvent)
    (l : option Coordinates) (h : option R) :
  fold_left applyEvent events (snapshot_of l h) =
  snapshot_of (lastLocation l events) (lastHeading h events).
Proof.
  revert l h. induction events as [| e rest IH]; intros l h; [reflexivity |].
  cbn [fold_left]. rewrite applyEvent_snapshot_of. apply IH.
Qed.

(** X20. After any interleaving of location and heading deliveries, the snapshot
    is the one determined by the latest location and the latest heading
    alone: target fixed, distance and bearing computed from that location,
    relative angle from that heading and that bearing. *)
Theorem snapshot_determined_by_latest_samples (events : list NavEvent) :
  fold_left applyEvent events initialNavigationData =
  snapshot_of (lastLocation None events) (lastHeading None events).
Proof.
  change initialNavigationData with (snapshot_of None None).
  apply fold_applyEvent_snapshot_of.
Qed.

(** X21. On every snapshot, the two reducers commute as whole-snapshot updates,
    and a later sample from one source replaces the effect of an earlier
    sample from the same source. *)
Theorem reducers_commute_and_override
    (d : NavigationData) (l1 l2 : Coordinates) (h1 h2 : R) :
  updateLocation l1 (updateDeviceHeading h1 d) =
    updateDeviceHeading h1 (updateLocation l1 d) /\
  updateLocation l2 (updateLocation l1 d) = updateLocation l2 d /\
  updateDeviceHeading h2 (updateDeviceHeading h1 d) = updateDeviceHeading h2 d.
Proof.
  unfold updateLocation, updateDeviceHeading. simpl.
  repeat split; destruct (deviceHeading d), (bearing d); reflexivity.
Qed.



End SnapshotLaws.

(** * Further properties of the services *)

(** ** Subscriber sets *)

Section ListenerSets.

Context {Args World : Type}.

Implicit Types (l : Listener Args World) (set : list (Listener Args World)).






(** When no subscriber throws, a fan-out serves every subscriber once, in
    registration order, and completes normally. *)
Lemma forEach_all_normal (steps : list (World -> World)) (w : World) :
  forEach (map (fun g w' => Normal (g w')) steps) w =
  Normal (fold_left (fun w' g => g w') steps w).
Proof.
  revert w. induction steps as [| g rest IH]; intros w; [reflexivity |].
  simpl. apply IH.
Qed.

End ListenerSets.


(** A subscriber that never throws: it changes the world by [effect]. *)
Definition quietListener {Args World : Type} (id : nat)
    (effect : Args -> World -> World) : Listener Args World :=
  mkListener id (fun args w => Normal (effect args w)).

Section FanOutServed.

Context {World : Type}.

(** X24. When none of the registered subscribers throws, an orientation sample
    (and likewise a position fix) completes normally after every subscriber
    has been called exactly once, in registration order, with the heading,
    pitch and roll (the coordinates) just stored. *)
Theorem quiet_subscribers_all_served
    (effects : list (nat * (R * R * R -> World -> World)))
    (places : list (nat * (Coordinates -> World -> World)))
    (s : SensorService.t World) (t : LocationService.t World)
    (data : DeviceMotionData) (r : Rotation) (coords : Coordinates)
    (w : World) :
  rotation data = Some r ->
  SensorService.listeners s =
    map (fun p => quietListener (fst p) (snd p)) effects ->
  LocationService.listeners t =
    map (fun p => quietListener (fst p) (snd p)) places ->
  let s' := fst (SensorService.processDeviceMotion data s w) in
  let args := (SensorService.currentHeading s',
               SensorService.currentPitch s',
               SensorService.currentRoll s') in
  snd (SensorService.processDeviceMotion data s w) =
    Normal (fold_left (fun w' p => snd p args w') effects w) /\
  snd (LocationService.onPosition coords t w) =
    Normal (fold_left (fun w' p => snd p coords w') places w).
Proof.
  intros Hr Hs Ht s' args. split.
  - subst s' args. unfold SensorService.processDeviceMotion. rewrite Hr.
    destruct (AngleFilter.update _ _) as [f' out]. cbn [fst snd].
    unfold SensorService.notifyListeners.
    cbn [SensorService.listeners SensorService.currentHeading
         SensorService.currentPitch SensorService.currentRoll].
    rewrite Hs, map_map. cbn [listenerCall quietListener].
    set (a := (_, _, _)).
    rewrite <- (map_map (fun p => snd p a) (fun g w' => Normal (g w'))).
    rewrite forEach_all_normal.
    f_equal. clear. generalize w.
    induction effects as [| p rest IH]; intros w0; [reflexivity |].
    simpl. apply IH.
  - unfold LocationService.onPosition. cbn [snd LocationService.listeners].
    destruct coords as [lat lon]. cbn [latitude longitude].
    rewrite Ht, map_map. cbn [listenerCall quietListener].
    set (c := {| latitude := lat; longitude := lon |}).
    rewrite <- (map_map (fun p => snd p c) (fun g w' => Normal (g w'))).
    rewrite forEach_all_normal.
    f_equal. clear. generalize w.
    induction places as [| p rest IH]; intros w0; [reflexivity |].
    simpl. apply IH.
Qed.

End FanOutServed.

Lemma quiet_subscribers_all_served_witness :
  let s : SensorService.t (list nat) :=
    SensorService.addListener (quietListener 2 (fun _ w => 2%nat :: w))
      (SensorService.addListener (quietListener 1 (fun _ w => 1%nat :: w))
         SensorService.new) in
  snd (SensorService.processDeviceMotion northSample s []) =
  Normal [2%nat; 1%nat].
Proof.
  intros s.
  refine (proj1 (quiet_subscribers_all_served
            [(1%nat, fun _ w => 1%nat :: w); (2%nat, fun _ w => 2%nat :: w)]
            [] s LocationService.new northSample
            {| alpha := 0; beta := 0; gamma := 0 |} TARGET_LOCATION []
            _ _ _)); reflexivity.
Defined.

(** ** Orientation paths and calibration *)

Section OrientationPaths.

Context {World : Type}.




End OrientationPaths.



(** ** Teardown of the sensor service *)

Module SensorLifecycle.

(** The four hardware subscription fields of the class. A subscription is
    known by the handle whose [remove] is called. *)
Record Subscriptions : Type := mk {
  magnetometerSubscription : option nat;
  gyroscopeSubscription : option nat;
  accelerometerSubscription : option nat;
  deviceMotionSubscription : option nat
}.

Definition none : Subscriptions :=
  {| magnetometerSubscription := None;
     gyroscopeSubscription := None;
     accelerometerSubscription := None;
     deviceMotionSubscription := None |}.

(** [if (sub) { sub.remove(); sub = null }]: the handle removed, if any. *)
Definition removeIfSet (sub : option nat) : list nat :=
  match sub with
  | Some handle => [handle]
  | None => []
  end.

(** [stopSensors]: the fields afterwards, and the handles whose [remove]
    was called, in call order. *)
Definition stopSensors (subs : Subscriptions) : Subscriptions * list nat :=
  (none,
   removeIfSet (magnetometerSubscription subs) ++
   removeIfSet (gyroscopeSubscription subs) ++
   removeIfSet (accelerometerSubscription subs) ++
   removeIfSet (deviceMotionSubscription subs)).

Definition cleanup {World : Type} (subs : Subscriptions)
    (s : SensorService.t World)
  : Subscriptions * SensorService.t World * list nat :=
  let (subs', removed) := stopSensors subs in
  (subs',
   {| SensorService.headingFilter :=
        AngleFilter.reset (SensorService.headingFilter s);
      SensorService.pitchFilter :=
        LowPassFilter.reset (SensorService.pitchFilter s);
      SensorService.rollFilter :=
        LowPassFilter.reset (SensorService.rollFilter s);
      SensorService.currentHeading := SensorService.currentHeading s;
      SensorService.currentPitch := SensorService.currentPitch s;
      SensorService.currentRoll := SensorService.currentRoll s;
      SensorService.isCalibrated := SensorService.isCalibrated s;
      SensorService.calibrationOffset := SensorService.calibrationOffset s;
      SensorService.listeners := [] |},
   removed).

End SensorLifecycle.


Section SensorInvariants.

Context {World : Type}.




End SensorInvariants.



(** ** The location service over its lifetime *)

Module LocationLifecycle.

(** [stopWatching] on the [locationSubscription] field: the field
    afterwards and the handle whose [remove] was called. *)
Definition stopWatching (sub : option nat) : option nat * list nat :=
  (None, SensorLifecycle.removeIfSet sub).

Definition cleanup {World : Type} (sub : option nat)
    (s : LocationService.t World)
  : option nat * LocationService.t World * list nat :=
  let (sub', removed) := stopWatching sub in
  (sub',
   {| LocationService.currentLocation := None;
      LocationService.listeners := [] |},
   removed).

End LocationLifecycle.

(** What can happen to the location service once it is watching. *)
Inductive LocationOp (World : Type) : Type :=
| PositionFix (coords : Coordinates)
| Subscribe (l : LocationService.LocationListener World)
| Unsubscribe (l : LocationService.LocationListener World)
| Teardown.

Arguments PositionFix {World} coords.
Arguments Subscribe {World} l.
Arguments Unsubscribe {World} l.
Arguments Teardown {World}.

(** The world a completion leaves behind, thrown or not. *)
Definition worldAfter {World : Type} (c : completion World) : World :=
  match c with
  | Normal w => w
  | Thrown _ w => w
  end.

(** The service and the world after a sequence of operations; a throwing
    subscriber ends its own fan-out only. *)
Fixpoint locationRun {World : Type} (sub : option nat)
    (s : LocationService.t World) (w : World) (ops : list (LocationOp World))
  : option nat * LocationService.t World * World :=
  match ops with
  | [] => (sub, s, w)
  | PositionFix coords :: rest =>
      let (s', c) := LocationService.onPosition coords s w in
      locationRun sub s' (worldAfter c) rest
  | Subscribe l :: rest => locationRun sub (LocationService.addListener l s) w rest
  | Unsubscribe l :: rest =>
      locationRun sub (LocationService.unsubscribe l s) w rest
  | Teardown :: rest =>
      let '(sub', s', _) := LocationLifecycle.cleanup sub s in
      locationRun sub' s' w rest
  end.

(** The latest fix since the last teardown. *)
Definition latestFix {World : Type} (start : option Coordinates)
    (ops : list (LocationOp World)) : option Coordinates :=
  fold_left (fun acc op =>
               match op with
               | PositionFix coords => Some coords
               | Teardown => None
               | _ => acc
               end) ops start.

Section LocationLifetime.

Context {World : Type}.

(** X29. [getLastKnownLocation] returns the latest position fix delivered since
    the last teardown, and nothing after a teardown until the next fix;
    subscribing, unsubscribing and throwing subscribers do not affect it. *)
Theorem last_known_location_is_latest_fix
    (sub : option nat) (s : LocationService.t World) (w : World)
    (ops : list (LocationOp World)) :
  LocationService.getLastKnownLocation (snd (fst (locationRun sub s w ops))) =
  latestFix (LocationService.getLastKnownLocation s) ops.
Proof.
  revert sub s w. induction ops as [| op rest IH]; intros sub s w.
  - reflexivity.
  - destruct op as [coords | l | l |].
    + destruct coords as [lat lon].
      exact (IH sub
               (fst (LocationService.onPosition
                       {| latitude := lat; longitude := lon |} s w))
               (worldAfter
                  (snd (LocationService.onPosition
                          {| latitude := lat; longitude := lon |} s w)))).
    + exact (IH sub (LocationService.addListener l s) w).
    + exact (IH sub (LocationService.unsubscribe l s) w).
    + exact (IH None (snd (fst (LocationLifecycle.cleanup sub s))) w).
Qed.

End LocationLifetime.

(** * Distance formatting *)

From Stdlib Require DecimalString.

Module Format.

(** [Math.floor] and [Math.round] (ties go up) as integers. *)
Definition floor (x : R) : Z := Int_part x.
Definition round (x : R) : Z := Int_part (x + 0.5).

(** The text a template literal gives an integer-valued number (below the
    size where JavaScript switches to exponent notation). *)
Definition numberToString (n : Z) : string :=
  DecimalString.NilZero.string_of_int (Z.to_int n).

End Format.

Definition formatDistance (meters : R) : string :=
  if Rlt_dec meters 1000 then
    (Format.numberToString (Format.round meters) ++ "m")%string
  else
    let km := Format.floor (meters / 1000) in
    let remainingMeters := Format.round (JS.rem meters 1000) in
    (Format.numberToString km ++ "km " ++
     Format.numberToString remainingMeters ++ "m")%string.

Section FormatDistance.

Lemma round_near (x : R) :
  IZR (Format.round x) - 1 / 2 <= x < IZR (Format.round x) + 1 / 2.
Proof.
  unfold Format.round. pose proof (base_Int_part (x + 0.5)) as [H1 H2]. lra.
Qed.

Lemma round_range (x : R) (lo hi : Z) :
  IZR lo <= x -> x < IZR hi -> (lo <= Format.round x <= hi)%Z.
Proof.
  intros Hlo Hhi. pose proof (round_near x) as [H1 H2].
  split.
  - apply Z.lt_succ_r. apply lt_IZR. rewrite succ_IZR. lra.
  - apply Z.lt_succ_r. apply lt_IZR. rewrite succ_IZR. lra.
Qed.



(** X10. Below one kilometre the text is the rounded number of metres followed
    by [m]; for a distance in [[0, 1000)] that number lies between 0 and
    1000 inclusive, and it is 1000 from 999.5 metres on. *)
Theorem formatDistance_metres (meters : R) :
  0 <= meters < 1000 ->
  formatDistance meters =
    (Format.numberToString (Format.round meters) ++ "m")%string /\
  (0 <= Format.round meters <= 1000)%Z /\
  Rabs (IZR (Format.round meters) - meters) <= 1 / 2 /\
  (999.5 <= meters -> formatDistance meters = "1000m"%string).
Proof.
  intros Hm. unfold formatDistance.
  destruct (Rlt_dec meters 1000); [| lra].
  pose proof (round_near meters) as [N1 N2].
  pose proof (round_range meters 0 1000 ltac:(lra) ltac:(lra)) as Hrange.
  split; [reflexivity |]. split; [exact Hrange |]. split.
  - apply Rabs_le. lra.
  - intros Hge.
    assert (E : Format.round meters = 1000%Z).
    { assert (999 < Format.round meters)%Z by (apply lt_IZR; lra). lia. }
    rewrite E. reflexivity.
Qed.

Lemma formatDistance_metres_witness :
  formatDistance 999.5 = "1000m"%string.
Proof.
  apply (proj2 (proj2 (proj2 (formatDistance_metres 999.5 ltac:(lra))))). lra.
Defined.

End FormatDistance.

